(** * mlir/IR/Operation.h: the operation node, its attribute list, the typed
    views and the indexed accessor iterators.

    Shallow embedding.  Pointers are machine addresses in [Z], [nullptr] is
    address 0.  [unsigned] is a 32-bit word and [ptrdiff_t] a 64-bit signed
    word (LP64); every conversion between them is written out.  An [assert]
    is modelled as it behaves in a build that keeps assertions: a failing one
    ends the call with [AssertFails]. *)

From Stdlib Require Import ZArith Lia.
From stdpp Require Import base option list gmap strings.

Local Open Scope Z_scope.

(** ** Machine integers and pointers *)

Definition nullptr : Z := 0.

(** Conversion of an integer value to [unsigned] (32 bits). *)
Definition to_unsigned (z : Z) : Z := z mod 2 ^ 32.

(** Conversion of an integer value to [ptrdiff_t] (64 bits, two's
    complement). *)
Definition to_ptrdiff (z : Z) : Z := (z + 2 ^ 63) mod 2 ^ 64 - 2 ^ 63.

Definition is_unsigned (z : Z) : Prop := 0 <= z < 2 ^ 32.
Definition is_ptrdiff (z : Z) : Prop := - 2 ^ 63 <= z < 2 ^ 63.

(** Result of a call that contains an [assert]. *)
Inductive Asserted (A : Type) : Type :=
  | Returns (a : A)
  | AssertFails (msg : string).
Arguments Returns {A} a.
Arguments AssertFails {A} msg.

(** ** llvm::PointerIntPair<PointerT, 1, bool>

    The pair is one machine word: the pointer with the integer stored in the
    highest of the pointer's [NumLowBitsAvailable] free low bits. *)
Module PointerIntPair.
Section Layout.
Variable NumLowBitsAvailable : Z.

Definition IntBits : Z := 1.
Definition PointerBitMask : Z := Z.lnot (Z.shiftl 1 NumLowBitsAvailable - 1).
Definition IntShift : Z := NumLowBitsAvailable - IntBits.
Definition IntMask : Z := Z.shiftl 1 IntBits - 1.
Definition ShiftedIntMask : Z := Z.shiftl IntMask IntShift.

Definition updatePointer (OrigValue Ptr : Z) : Z :=
    Z.lor Ptr (Z.land OrigValue (Z.lnot PointerBitMask)).

Definition updateInt (OrigValue Int : Z) : Z :=
    Z.lor (Z.land OrigValue (Z.lnot ShiftedIntMask)) (Z.shiftl Int IntShift).

  (** [PointerIntPair(PtrVal, IntVal)] *)
Definition make (PtrVal : Z) (IntVal : bool) : Z :=
    updateInt (updatePointer 0 PtrVal) (Z.b2z IntVal).

Definition getPointer (Value : Z) : Z := Z.land Value PointerBitMask.

Definition getInt (Value : Z) : bool :=
    negb (Z.land (Z.shiftr Value IntShift) IntMask =? 0).
End Layout.
End PointerIntPair.

(** ** Identifiers, attributes, values *)

(** An [Identifier] is the address of the interned string; [==] on
    identifiers compares addresses. *)
Definition Identifier : Type := Z.

(** Pointers to [Attribute], [SSAValue], [Type] and [MLIRContext]. *)
Definition AttributePtr : Type := Z.
Definition SSAValuePtr : Type := Z.
Definition TypePtr : Type := Z.
Definition MLIRContextPtr : Type := Z.

(** [typedef std::pair<Identifier, Attribute*> NamedAttribute] *)
Definition NamedAttribute : Type := Identifier * AttributePtr.

(** Number of entries of an attribute list that carry the name [name]. *)
Definition attrCount (name : Identifier) (elts : list NamedAttribute) : nat :=
  length (filter (λ elt, elt.1 = name) elts).

(** ** struct OperationState *)
Module OperationState.
Section WithContext.
  (** [Identifier::get(name, context)], the interning authority. *)
Variable Identifier_get : string → MLIRContextPtr → Identifier.

Record t : Type := mk {
    context : MLIRContextPtr;
    location : AttributePtr;
    name : Identifier;
    operands : list SSAValuePtr;
    types : list TypePtr;
    attributes : list NamedAttribute
  }.

  (** [OperationState(context, location, StringRef name)] *)
Definition create (context : MLIRContextPtr) (location : AttributePtr)
      (name : string) : t :=
    mk context location (Identifier_get name context) [] [] [].

  (** [OperationState(context, location, Identifier name)] *)
Definition createWithIdentifier (context : MLIRContextPtr)
      (location : AttributePtr) (name : Identifier) : t :=
    mk context location name [] [] [].

  (** [OperationState(context, location, name, operands, types, attributes)] *)
Definition createFull (context : MLIRContextPtr) (location : AttributePtr)
      (name : string) (operands : list SSAValuePtr) (types : list TypePtr)
      (attributes : list NamedAttribute) : t :=
    mk context location (Identifier_get name context) operands types attributes.

Definition addOperands (newOperands : list SSAValuePtr) (s : t) : t :=
    mk (context s) (location s) (name s) (operands s ++ newOperands)
       (types s) (attributes s).

Definition addTypes (newTypes : list TypePtr) (s : t) : t :=
    mk (context s) (location s) (name s) (operands s)
       (types s ++ newTypes) (attributes s).

Definition addAttribute (name' : string) (attr : AttributePtr) (s : t) : t :=
    mk (context s) (location s) (name s) (operands s) (types s)
       (attributes s ++ [(Identifier_get name' (context s), attr)]).
End WithContext.
End OperationState.

(** ** class Operation *)
Module Operation.

Inductive OperationKind : Type := Instruction | Statement.

Inductive RemoveResult : Type := Removed | NotFound.

(** The node.  [nameAndIsInstruction] and [attrs] are the two fields of the
    class; [context], [location], [operands] and [results] are the state that
    the concrete form of the node (OperationInst or OperationStmt) keeps and
    that the base class reaches through [getContext], [getLoc], [getOperand]
    and [getResult]. *)
Record t : Type := mk {
  nameAndIsInstruction : Z;
  attrs : list NamedAttribute;
  context : MLIRContextPtr;
  location : AttributePtr;
  operands : list SSAValuePtr;
  results : list SSAValuePtr
}.

Definition with_attrs (newAttrs : list NamedAttribute) (op : t) : t :=
  mk (nameAndIsInstruction op) newAttrs (context op) (location op)
     (operands op) (results op).

Definition with_operands (newOperands : list SSAValuePtr) (op : t) : t :=
  mk (nameAndIsInstruction op) (attrs op) (context op) (location op)
     newOperands (results op).

Section WithTraits.
(** [PointerLikeTypeTraits<Identifier>::NumLowBitsAvailable], declared in
    mlir/IR/Identifier.h. *)
Variable NumLowBitsAvailable : Z.

(** Modelled from the spec: the protected constructor
    [Operation(isInstruction, name, attrs, context)], whose body is in
    Operation.cpp.  It packs the name and the flag into
    [nameAndIsInstruction] and stores the attribute list of the finalized
    descriptor; the operands and results are those the concrete form was
    built with. *)
Definition create (isInstruction : bool) (name : Identifier)
    (attrs : list NamedAttribute) (context : MLIRContextPtr)
    (location : AttributePtr) (operands results : list SSAValuePtr) : t :=
  mk (PointerIntPair.make NumLowBitsAvailable name isInstruction)
     attrs context location operands results.

Definition getName (op : t) : Identifier :=
  PointerIntPair.getPointer NumLowBitsAvailable (nameAndIsInstruction op).

Definition getOperationKind (op : t) : OperationKind :=
  if PointerIntPair.getInt NumLowBitsAvailable (nameAndIsInstruction op)
  then Instruction else Statement.
End WithTraits.

Definition getContext (op : t) : MLIRContextPtr := context op.

Definition getLoc (op : t) : AttributePtr := location op.

(** Modelled from the spec: [getAttrs], whose body is in Operation.cpp; it
    returns the (name, value) pairs of the attribute association. *)
Definition getAttrs (op : t) : list NamedAttribute := attrs op.

(** The loop of [getAttr(Identifier)]: the value of the first entry whose
    name is [name], [nullptr] when the loop runs off the end. *)
Fixpoint getAttr_scan (elts : list NamedAttribute) (name : Identifier)
    : AttributePtr :=
  match elts with
  | [] => nullptr
  | elt :: rest =>
      if decide (elt.1 = name) then elt.2 else getAttr_scan rest name
  end.

Definition getAttr (name : Identifier) (op : t) : AttributePtr :=
  getAttr_scan (getAttrs op) name.

(** Modelled from the spec: [setAttr], whose body is in Operation.cpp:
    "replaces the value if name exists, else appends a new entry". *)
Fixpoint setAttr_scan (elts : list NamedAttribute) (name : Identifier)
    (value : AttributePtr) : list NamedAttribute :=
  match elts with
  | [] => [(name, value)]
  | elt :: rest =>
      if decide (elt.1 = name) then (elt.1, value) :: rest
      else elt :: setAttr_scan rest name value
  end.

Definition setAttr (name : Identifier) (value : AttributePtr) (op : t) : t :=
  with_attrs (setAttr_scan (getAttrs op) name value) op.

(** Modelled from the spec: [removeAttr], whose body is in Operation.cpp:
    "Remove the attribute with the specified name if it exists.  The return
    value indicates whether the attribute was present or not."  The scan is
    linear and stops at the entry it removes. *)
Fixpoint removeAttr_scan (elts : list NamedAttribute) (name : Identifier)
    : option (list NamedAttribute) :=
  match elts with
  | [] => None
  | elt :: rest =>
      if decide (elt.1 = name) then Some rest
      else (elt ::.) <$> removeAttr_scan rest name
  end.

Definition removeAttr (name : Identifier) (op : t) : RemoveResult * t :=
  match removeAttr_scan (getAttrs op) name with
  | Some newAttrs => (Removed, with_attrs newAttrs op)
  | None => (NotFound, op)
  end.

(** Modelled from the spec: [getNumOperands], [getOperand], [setOperand],
    [getNumResults] and [getResult], which the concrete form of the node
    implements.  An index outside the range is undefined behaviour at this
    layer: the model returns [None] there. *)
Definition getNumOperands (op : t) : Z := Z.of_nat (length (operands op)).

Definition getOperand (idx : Z) (op : t) : option SSAValuePtr :=
  if decide (0 <= idx < getNumOperands op)
  then operands op !! Z.to_nat idx else None.

Definition setOperand (idx : Z) (value : SSAValuePtr) (op : t) : option t :=
  if decide (0 <= idx < getNumOperands op)
  then Some (with_operands (<[Z.to_nat idx := value]> (operands op)) op)
  else None.

Definition getNumResults (op : t) : Z := Z.of_nat (length (results op)).

Definition getResult (idx : Z) (op : t) : option SSAValuePtr :=
  if decide (0 <= idx < getNumResults op)
  then results op !! Z.to_nat idx else None.

(** The data-model invariant of the attribute association: every name has
    at most one entry. *)
Definition attrsUnique (op : t) : Prop := NoDup (getAttrs op).*1.

(** An attribute named [name] is present. *)
Definition hasAttr (name : Identifier) (op : t) : Prop :=
  name ∈ (getAttrs op).*1.

(** The mutations a pass applies to a node in place. *)
Inductive Mutation : Type :=
  | SetAttr (name : Identifier) (value : AttributePtr)
  | RemoveAttr (name : Identifier)
  | SetOperand (idx : Z) (value : SSAValuePtr).

Definition applyMutation (mu : Mutation) (op : t) : option t :=
  match mu with
  | SetAttr name value => Some (setAttr name value op)
  | RemoveAttr name => Some (removeAttr name op).2
  | SetOperand idx value => setOperand idx value op
  end.

Fixpoint applyMutations (mus : list Mutation) (op : t) : option t :=
  match mus with
  | [] => Some op
  | mu :: rest => applyMutation mu op ≫= applyMutations rest
  end.


(** The [StringRef] overload of [getAttr]: the same loop, with the name of
    each entry compared by [Identifier::is(StringRef)], which is declared in
    mlir/IR/Identifier.h. *)
Section WithIdentifierIs.
Variable Identifier_is : Identifier → string → bool.

Fixpoint getAttr_str_scan (elts : list NamedAttribute) (name : string)
    : AttributePtr :=
  match elts with
  | [] => nullptr
  | elt :: rest =>
      if Identifier_is elt.1 name then elt.2 else getAttr_str_scan rest name
  end.

Definition getAttr_str (name : string) (op : t) : AttributePtr :=
  getAttr_str_scan (getAttrs op) name.
End WithIdentifierIs.

(** [getAttrOfType<AttrClass>]: [dyn_cast_or_null<AttrClass>(getAttr(name))].
    An attribute class supplies [classof]; llvm's [dyn_cast_or_null] returns
    null for a null pointer and for a pointer that [classof] rejects, and the
    pointer itself otherwise. *)
Class AttrClass (A : Type) : Type := classof : AttributePtr → bool.
Arguments classof A {_} attr.

Definition dyn_cast_or_null (A : Type) `{!AttrClass A} (Val : AttributePtr)
    : AttributePtr :=
  if Val =? nullptr then nullptr
  else if classof A Val then Val else nullptr.

Definition getAttrOfType (A : Type) `{!AttrClass A} (name : Identifier)
    (op : t) : AttributePtr :=
  dyn_cast_or_null A (getAttr name op).

Definition getAttrOfType_str (A : Type) `{!AttrClass A}
    (Identifier_is : Identifier → string → bool) (name : string) (op : t)
    : AttributePtr :=
  dyn_cast_or_null A (getAttr_str Identifier_is name op).

(** A mutation is within the contract of a node with [n] operands: it
    does not index past them. *)
Definition inContract (n : Z) (mu : Mutation) : Prop :=
  match mu with
  | SetOperand idx _ => 0 <= idx < n
  | _ => True
  end.

End Operation.

(** ** The store

    Nodes live at addresses; an iterator or a typed view holds the address of
    its node, never a copy. *)
Abbreviation Memory := (gmap Z Operation.t).

(** ** template class IndexedAccessorIterator *)
Module IndexedAccessorIterator.

Record t : Type := mk {
  object : Z;
  index : Z
}.

(** [operator-]: the two [unsigned] indices are subtracted as [unsigned] and
    the difference is converted to [ptrdiff_t]. *)
Definition op_minus (lhs rhs : t) : Asserted Z :=
  if decide (object lhs = object rhs)
  then Returns (to_ptrdiff (to_unsigned (index lhs - index rhs)))
  else AssertFails "incompatible iterators".

(** [operator==] *)
Definition op_eq (lhs rhs : t) : bool :=
  bool_decide (object lhs = object rhs) && bool_decide (index lhs = index rhs).

(** [operator<] *)
Definition op_lt (lhs rhs : t) : Asserted bool :=
  if decide (object lhs = object rhs)
  then Returns (bool_decide (index lhs < index rhs))
  else AssertFails "incompatible iterators".

(** [operator+=]: [index] is promoted to [ptrdiff_t], the offset is added and
    the sum is converted back to [unsigned]. *)
Definition op_plus_assign (it : t) (offset : Z) : t :=
  mk (object it) (to_unsigned (to_ptrdiff (index it + offset))).

(** [operator-=] *)
Definition op_minus_assign (it : t) (offset : Z) : t :=
  mk (object it) (to_unsigned (to_ptrdiff (index it - offset))).

(** [operator!=] and [operator++] of llvm::iterator_facade_base, which derives
    them from [operator==] and [operator+=]. *)
Definition op_ne (lhs rhs : t) : bool := negb (op_eq lhs rhs).

Definition op_incr (it : t) : t := op_plus_assign it 1.

(** A range-based [for] over [begin, end): dereference and step until the
    cursor equals [last].  [fuel] bounds the number of loop tests; [None] is
    a dereference with no defined result, or fuel that ran out. *)
Fixpoint traverse {E : Type} (deref : t → option E) (fuel : nat)
    (it last : t) : option (list E) :=
  match fuel with
  | O => None
  | S fuel' =>
      if op_ne it last
      then x ← deref it;
           rest ← traverse deref fuel' (op_incr it) last;
           Some (x :: rest)
      else Some []
  end.

End IndexedAccessorIterator.

(** ** OperandIterator and ResultIterator *)
Module OperandIterator.
Import IndexedAccessorIterator.

(** [operator*]: [this->object->getOperand(this->index)] *)
Definition deref (m : Memory) (it : t) : option SSAValuePtr :=
  m !! object it ≫= Operation.getOperand (index it).

End OperandIterator.

Module ResultIterator.
Import IndexedAccessorIterator.

(** [operator*]: [this->object->getResult(this->index)] *)
Definition deref (m : Memory) (it : t) : option SSAValuePtr :=
  m !! object it ≫= Operation.getResult (index it).

End ResultIterator.

(** ** The inline iterator methods of Operation; [this] is the address of
    the node. *)
Module OperationRange.
Import IndexedAccessorIterator.

Definition operand_begin (this : Z) : t := mk this 0.

Definition operand_end (m : Memory) (this : Z) : option t :=
  op ← m !! this; Some (mk this (Operation.getNumOperands op)).

(** [getOperands()], the pair [{operand_begin(), operand_end()}]. *)
Definition getOperands (m : Memory) (this : Z) : option (t * t) :=
  last ← operand_end m this; Some (operand_begin this, last).

Definition result_begin (this : Z) : t := mk this 0.

Definition result_end (m : Memory) (this : Z) : option t :=
  op ← m !! this; Some (mk this (Operation.getNumResults op)).

Definition getResults (m : Memory) (this : Z) : option (t * t) :=
  last ← result_end m this; Some (result_begin this, last).

(** [for (auto *v : op->getOperands())], collecting what the loop sees. *)
Definition forOperands (m : Memory) (fuel : nat) (this : Z)
    : option (list SSAValuePtr) :=
  r ← getOperands m this; traverse (OperandIterator.deref m) fuel r.1 r.2.

Definition forResults (m : Memory) (fuel : nat) (this : Z)
    : option (list SSAValuePtr) :=
  r ← getResults m this; traverse (ResultIterator.deref m) fuel r.1 r.2.

End OperationRange.

(** ** Typed views: getAs and is *)
Module TypedView.

(** What an op class such as DimOp supplies: the static predicate
    [isClassFor(const Operation pointer)], which reads the node at that
    address. *)
Class OpClass (T : Type) : Type := isClassFor : Memory → Z → bool.
Arguments isClassFor T {_} m this.

(** The op object built by [OpClass(state)]: it holds the node pointer. *)
Record Op (T : Type) : Type := mkOp { getOperation : Z }.
Arguments mkOp {T} _.
Arguments getOperation {T} _.

(** [OpPointer<OpClass>] and [ConstOpPointer<OpClass>]: each wraps one op
    object. *)
Record OpPointer (T : Type) : Type := mkOpPointer { value : Op T }.
Arguments mkOpPointer {T} _.
Arguments value {T} _.

Record ConstOpPointer (T : Type) : Type :=
  mkConstOpPointer { const_value : Op T }.
Arguments mkConstOpPointer {T} _.
Arguments const_value {T} _.

(** Modelled from the spec: the validity test of a wrapper ("callers test
    the wrapper for validity before use"), declared in OpDefinition.h: the
    wrapper is valid when the pointer it holds is not null. *)
Definition isValid {T : Type} (p : OpPointer T) : bool :=
  negb (getOperation (value p) =? nullptr).

Definition isValidConst {T : Type} (p : ConstOpPointer T) : bool :=
  negb (getOperation (const_value p) =? nullptr).

(** [template <typename OpClass> OpPointer<OpClass> getAs()] *)
Definition getAs (T : Type) `{!OpClass T} (m : Memory) (this : Z)
    : OpPointer T :=
  let isMatch := isClassFor T m this in
  mkOpPointer (mkOp (if isMatch then this else nullptr)).

(** [template <typename OpClass> ConstOpPointer<OpClass> getAs() const] *)
Definition getAs_const (T : Type) `{!OpClass T} (m : Memory) (this : Z)
    : ConstOpPointer T :=
  let isMatch := isClassFor T m this in
  mkConstOpPointer (mkOp (if isMatch then this else nullptr)).

(** [template <typename OpClass> bool is() const] *)
Definition is_ (T : Type) `{!OpClass T} (m : Memory) (this : Z) : bool :=
  isClassFor T m this.

End TypedView.

(** ** A concrete node

    The node of the scenario: an instruction named "add" with two operands
    [a] and [b], one result and the attribute "overflow" = "wrap".  The
    identifiers and values are the addresses of the interned objects. *)
Module Scenario.

Definition lowBits : Z := 2.
Definition add_name : Identifier := 4096.
Definition overflow_name : Identifier := 4104.
Definition wrap_attr : AttributePtr := 8192.
Definition trap_attr : AttributePtr := 8200.
Definition a : SSAValuePtr := 256.
Definition b : SSAValuePtr := 512.
Definition r : SSAValuePtr := 768.

Definition addNode : Operation.t :=
  Operation.create lowBits true add_name [(overflow_name, wrap_attr)] 64 0
    [a; b] [r].

(** Where the node lives. *)
Definition addAddr : Z := 1024.
Definition memory : Memory := {[ addAddr := addNode ]}.

(** The op class of the "add" operation: its predicate accepts the nodes
    whose name is [add_name]. *)
Inductive AddOp : Type := AddOpTag.

#[global] Instance AddOp_OpClass : TypedView.OpClass AddOp :=
  λ m this,
    match m !! this with
    | Some op => bool_decide (Operation.getName lowBits op = add_name)
    | None => false
    end.

End Scenario.

(** ** More concrete data

    A node whose attribute list carries the name "overflow" twice, as a
    descriptor filled by two [addAttribute] calls hands it over; an interning
    table of two names; an attribute class that accepts one attribute. *)
Module Fixtures.

Definition doubled : Operation.t :=
  Operation.create Scenario.lowBits false Scenario.add_name
    [(Scenario.overflow_name, Scenario.wrap_attr);
     (Scenario.add_name, Scenario.trap_attr);
     (Scenario.overflow_name, Scenario.trap_attr)] 64 0
    [Scenario.a; Scenario.b] [].

(** Where a second node lives. *)
Definition otherAddr : Z := 2048.

Definition memory2 : Memory :=
  <[ otherAddr := doubled ]> Scenario.memory.

Definition Identifier_get (name : string) (context : MLIRContextPtr)
    : Identifier :=
  if String.eqb name "overflow" then Scenario.overflow_name
  else if String.eqb name "add" then Scenario.add_name
  else 4112.

Definition Identifier_is (id : Identifier) (name : string) : bool :=
  id =? Identifier_get name 64.



(** The class of the attribute "wrap". *)
Inductive WrapAttr : Type := WrapAttrTag.

#[global] Instance WrapAttr_AttrClass : Operation.AttrClass WrapAttr :=
  λ attr, attr =? Scenario.wrap_attr.

End Fixtures.

(** * Properties *)

(** ** Machine words *)

Lemma to_unsigned_range (z : Z) : is_unsigned (to_unsigned z).
Proof. unfold is_unsigned, to_unsigned. apply Z.mod_pos_bound. lia. Qed.

Lemma to_unsigned_small (z : Z) : is_unsigned z → to_unsigned z = z.
Proof. unfold is_unsigned, to_unsigned. intros ?. by apply Z.mod_small. Qed.

Lemma to_ptrdiff_small (z : Z) : is_ptrdiff z → to_ptrdiff z = z.
Proof.
  unfold is_ptrdiff, to_ptrdiff. intros ?.
  rewrite Z.mod_small by lia. lia.
Qed.

(** Narrowing to 32 bits forgets the 64-bit wrap-around. *)
Lemma to_unsigned_to_ptrdiff (z : Z) : to_unsigned (to_ptrdiff z) = z mod 2 ^ 32.
Proof.
  unfold to_unsigned, to_ptrdiff.
  assert (H64 : (2 : Z) ^ 64 = 2 ^ 32 * 2 ^ 32) by reflexivity.
  assert (H63 : (2 : Z) ^ 63 = 2 ^ 31 * 2 ^ 32) by reflexivity.
  pose proof (Z.div_mod (z + 2 ^ 63) (2 ^ 64) ltac:(lia)) as Hdm.
  replace ((z + 2 ^ 63) mod 2 ^ 64 - 2 ^ 63)
    with (z + (- ((z + 2 ^ 63) / 2 ^ 64) * 2 ^ 32) * 2 ^ 32) by lia.
  apply Z.mod_add. lia.
Qed.

(** ** PointerIntPair: what is packed is read back *)
Section PointerIntPairFacts.
Variable NumLowBitsAvailable : Z.
Hypothesis one_low_bit : 1 <= NumLowBitsAvailable.

Lemma land_IntMask (x : Z) :
  Z.land x PointerIntPair.IntMask = Z.b2z (Z.testbit x 0).
Proof.
  change PointerIntPair.IntMask with (Z.ones 1).
  rewrite Z.land_ones by lia. symmetry. apply Z.bit0_mod.
Qed.

Lemma getInt_testbit (Value : Z) :
  PointerIntPair.getInt NumLowBitsAvailable Value
  = Z.testbit Value (PointerIntPair.IntShift NumLowBitsAvailable).
Proof.
  unfold PointerIntPair.getInt. rewrite land_IntMask.
  rewrite Z.shiftr_spec by lia. simpl.
  by destruct (Z.testbit Value _).
Qed.

Lemma getInt_make (PtrVal : Z) (IntVal : bool) :
  PointerIntPair.getInt NumLowBitsAvailable
    (PointerIntPair.make NumLowBitsAvailable PtrVal IntVal) = IntVal.
Proof.
  rewrite getInt_testbit.
  unfold PointerIntPair.make, PointerIntPair.updateInt,
    PointerIntPair.ShiftedIntMask.
  set (s := PointerIntPair.IntShift NumLowBitsAvailable).
  assert (Hs : 0 <= s) by (unfold s, PointerIntPair.IntShift, PointerIntPair.IntBits; lia).
  rewrite Z.lor_spec, Z.land_spec, Z.lnot_spec by lia.
  rewrite !Z.shiftl_spec by lia. rewrite Z.sub_diag.
  change (Z.testbit PointerIntPair.IntMask 0) with true.
  rewrite andb_false_r. simpl.
  by destruct IntVal.
Qed.

Lemma getPointer_make (PtrVal : Z) (IntVal : bool) :
  Z.land PtrVal (Z.ones NumLowBitsAvailable) = 0 →
  PointerIntPair.getPointer NumLowBitsAvailable
    (PointerIntPair.make NumLowBitsAvailable PtrVal IntVal) = PtrVal.
Proof.
  intros Haligned.
  assert (Hlow : ∀ i, 0 <= i < NumLowBitsAvailable → Z.testbit PtrVal i = false).
  { intros i Hi.
    assert (Hb : Z.testbit (Z.land PtrVal (Z.ones NumLowBitsAvailable)) i = false)
      by (rewrite Haligned; apply Z.bits_0).
    rewrite Z.land_spec, Z.ones_spec_low, andb_true_r in Hb by lia. done. }
  unfold PointerIntPair.getPointer, PointerIntPair.make,
    PointerIntPair.updateInt, PointerIntPair.updatePointer,
    PointerIntPair.ShiftedIntMask, PointerIntPair.PointerBitMask,
    PointerIntPair.IntShift, PointerIntPair.IntBits.
  rewrite Z.shiftl_1_l.
  replace (2 ^ NumLowBitsAvailable - 1) with (Z.ones NumLowBitsAvailable)
    by (rewrite Z.ones_equiv; lia).
  apply Z.bits_inj'. intros i Hi.
  rewrite Z.land_spec, Z.lor_spec, Z.land_spec, Z.lor_spec, Z.land_spec,
    !Z.lnot_spec, Z.bits_0 by lia.
  rewrite !Z.shiftl_spec by lia.
  destruct (decide (i < NumLowBitsAvailable)) as [Hlt|Hge].
  - rewrite Z.ones_spec_low by lia. rewrite Hlow by lia. simpl.
    by rewrite andb_false_r.
  - rewrite Z.ones_spec_high by lia. simpl.
    rewrite andb_true_r, orb_false_r.
    change PointerIntPair.IntMask with 1.
    assert (Hone : Z.testbit 1 (i - (NumLowBitsAvailable - 1)) = false).
    { apply Z.bits_above_log2; simpl; lia. }
    rewrite Hone. simpl. rewrite andb_true_r.
    assert (Hb : Z.testbit (Z.b2z IntVal) (i - (NumLowBitsAvailable - 1)) = false).
    { destruct IntVal; simpl.
      - apply Z.bits_above_log2; simpl; lia.
      - apply Z.bits_0. }
    rewrite Hb. by rewrite orb_false_r.
Qed.
End PointerIntPairFacts.

(** ** Attribute lists *)
Section AttributeLists.
Implicit Types (elts : list NamedAttribute) (name : Identifier)
  (value : AttributePtr).

Lemma attrCount_cons elt elts name :
  attrCount name (elt :: elts)
  = ((if decide (elt.1 = name) then 1 else 0) + attrCount name elts)%nat.
Proof.
  unfold attrCount. rewrite filter_cons. by destruct (decide (elt.1 = name)).
Qed.




Lemma getAttr_scan_absent elts name :
  name ∉ elts.*1 → Operation.getAttr_scan elts name = nullptr.
Proof.
  induction elts as [|elt elts IH]; [done|].
  rewrite fmap_cons, not_elem_of_cons. intros [Hne Hnotin]. simpl.
  rewrite decide_False by done. by apply IH.
Qed.


Lemma getAttr_scan_setAttr_scan_ne elts name name' value :
  name' ≠ name →
  Operation.getAttr_scan (Operation.setAttr_scan elts name value) name'
  = Operation.getAttr_scan elts name'.
Proof.
  intros Hne. induction elts as [|elt elts IH]; simpl.
  - by rewrite decide_False.
  - destruct (decide (elt.1 = name)) as [Heq|Hne']; simpl.
    + rewrite !decide_False by congruence. done.
    + by rewrite IH.
Qed.

(** [setAttr] leaves the names alone when [name] is there and appends it
    when it is not. *)
Lemma setAttr_scan_names elts name value :
  (Operation.setAttr_scan elts name value).*1
  = if decide (name ∈ elts.*1) then elts.*1 else elts.*1 ++ [name].
Proof.
  induction elts as [|elt elts IH].
  - rewrite decide_False; [done|]. apply not_elem_of_nil.
  - cbn [Operation.setAttr_scan].
    change ((elt :: elts).*1) with (elt.1 :: elts.*1).
    destruct (decide (elt.1 = name)) as [Heq|Hne].
    + rewrite decide_True; [done|]. rewrite Heq, elem_of_cons. by left.
    + rewrite fmap_cons, IH. destruct (decide (name ∈ elts.*1)) as [Hin|Hnotin].
      * rewrite decide_True; [done|]. rewrite elem_of_cons; by right.
      * rewrite decide_False; [done|]. rewrite not_elem_of_cons. done.
Qed.

Lemma setAttr_scan_NoDup elts name value :
  NoDup elts.*1 → NoDup (Operation.setAttr_scan elts name value).*1.
Proof.
  intros Hnodup. rewrite setAttr_scan_names.
  destruct (decide (name ∈ elts.*1)); [done|].
  apply NoDup_app. split_and!; [done| |apply NoDup_singleton].
  intros x Hx ->%list_elem_of_singleton. done.
Qed.


Lemma attrCount_setAttr_scan_ne elts name name' value :
  name' ≠ name →
  attrCount name' (Operation.setAttr_scan elts name value)
  = attrCount name' elts.
Proof.
  intros Hne. induction elts as [|elt elts IH]; simpl.
  - rewrite attrCount_cons. simpl. by rewrite decide_False.
  - destruct (decide (elt.1 = name)) as [Heq|Hne'].
    + rewrite !attrCount_cons. simpl. by rewrite !decide_False by congruence.
    + rewrite !attrCount_cons. by rewrite IH.
Qed.

Lemma removeAttr_scan_None elts name :
  Operation.removeAttr_scan elts name = None ↔ name ∉ elts.*1.
Proof.
  induction elts as [|elt elts IH]; simpl.
  - split; [intros _; apply not_elem_of_nil|done].
  - rewrite not_elem_of_cons. destruct (decide (elt.1 = name)) as [Heq|Hne].
    + split; [done|]. intros [? _]. congruence.
    + rewrite fmap_None, IH. split; [by intros ?|by intros [_ ?]].
Qed.

Lemma removeAttr_scan_Some elts name newAttrs :
  Operation.removeAttr_scan elts name = Some newAttrs →
  ∃ before value after,
    elts = before ++ (name, value) :: after ∧
    newAttrs = before ++ after ∧
    name ∉ before.*1.
Proof.
  revert newAttrs. induction elts as [|elt elts IH]; intros newAttrs; simpl.
  - done.
  - destruct (decide (elt.1 = name)) as [Heq|Hne].
    + intros [= <-]. exists [], elt.2, elts. destruct elt; simpl in *.
      subst. split_and!; [done|done|apply not_elem_of_nil].
    + rewrite fmap_Some. intros (rest & Hrest & ->).
      destruct (IH _ Hrest) as (before & value & after & -> & -> & Hnotin).
      exists (elt :: before), value, after.
      split_and!; [done|done|]. rewrite fmap_cons, not_elem_of_cons. done.
Qed.

Lemma removeAttr_scan_gone elts name newAttrs :
  NoDup elts.*1 →
  Operation.removeAttr_scan elts name = Some newAttrs →
  (name ∉ newAttrs.*1) ∧ NoDup (newAttrs.*1).
Proof.
  intros Hnodup (before & value & after & -> & -> & Hnotin)%removeAttr_scan_Some.
  rewrite fmap_app, fmap_cons in Hnodup. simpl in Hnodup.
  apply NoDup_app in Hnodup as (Hb & Hdisj & Ha).
  apply NoDup_cons in Ha as [Hna Ha].
  rewrite fmap_app. split.
  - rewrite not_elem_of_app. done.
  - apply NoDup_app. split_and!; [done| |done].
    intros x Hx Hx'. apply (Hdisj x Hx). rewrite elem_of_cons; by right.
Qed.

End AttributeLists.

(** ** Mutations of a node *)
Section Mutations.
Implicit Types (op : Operation.t) (mu : Operation.Mutation)
  (mus : list Operation.Mutation) (name : Identifier).

Lemma removeAttr_frame name op :
  Operation.nameAndIsInstruction (Operation.removeAttr name op).2
  = Operation.nameAndIsInstruction op ∧
  Operation.operands (Operation.removeAttr name op).2 = Operation.operands op.
Proof.
  unfold Operation.removeAttr.
  by destruct (Operation.removeAttr_scan _ _).
Qed.

(** No mutation writes the packed name-and-flag word. *)
Lemma applyMutation_nameAndIsInstruction mu op op' :
  Operation.applyMutation mu op = Some op' →
  Operation.nameAndIsInstruction op' = Operation.nameAndIsInstruction op.
Proof.
  destruct mu as [name value|name|idx value]; simpl.
  - by intros [= <-].
  - intros [= <-]. apply removeAttr_frame.
  - unfold Operation.setOperand. case_decide; [|done]. by intros [= <-].
Qed.

Lemma applyMutations_nameAndIsInstruction mus op op' :
  Operation.applyMutations mus op = Some op' →
  Operation.nameAndIsInstruction op' = Operation.nameAndIsInstruction op.
Proof.
  revert op. induction mus as [|mu mus IH]; intros op; simpl.
  - by intros [= <-].
  - destruct (Operation.applyMutation mu op) as [op1|] eqn:Hmu; [|done].
    simpl. intros Hrest. rewrite (IH _ Hrest).
    by apply applyMutation_nameAndIsInstruction with mu.
Qed.

Lemma applyMutation_getNumOperands mu op op' :
  Operation.applyMutation mu op = Some op' →
  Operation.getNumOperands op' = Operation.getNumOperands op.
Proof.
  unfold Operation.getNumOperands.
  destruct mu as [name value|name|idx value]; simpl.
  - by intros [= <-].
  - intros [= <-]. by rewrite (proj2 (removeAttr_frame name op)).
  - unfold Operation.setOperand. case_decide; [|done]. intros [= <-]. simpl.
    by rewrite length_insert.
Qed.

(** Mutations within the contract always go through. *)
Lemma applyMutations_defined mus op :
  Forall (Operation.inContract (Operation.getNumOperands op)) mus →
  is_Some (Operation.applyMutations mus op).
Proof.
  revert op. induction mus as [|mu mus IH]; intros op Hall; simpl; [by eexists|].
  apply Forall_cons in Hall as [Hmu Hall].
  assert (Hsome : is_Some (Operation.applyMutation mu op)).
  { destruct mu as [name value|name|idx value]; simpl; [by eexists..|].
    unfold Operation.setOperand. simpl in Hmu. rewrite decide_True by done.
    by eexists. }
  destruct Hsome as [op1 Hop1]. rewrite Hop1. simpl. apply IH.
  by rewrite (applyMutation_getNumOperands _ _ _ Hop1).
Qed.



Lemma removeAttr_gone name op :
  Operation.attrsUnique op →
  ¬ Operation.hasAttr name (Operation.removeAttr name op).2.
Proof.
  unfold Operation.attrsUnique, Operation.hasAttr, Operation.removeAttr.
  intros Hunique.
  destruct (Operation.removeAttr_scan _ _) as [newAttrs|] eqn:Hscan; simpl.
  - by apply (removeAttr_scan_gone _ _ _ Hunique Hscan).
  - by apply removeAttr_scan_None.
Qed.



(** The one-entry-per-name invariant holds at any time once it holds: every
    mutation keeps it. *)
Lemma applyMutation_attrsUnique mu op op' :
  Operation.attrsUnique op →
  Operation.applyMutation mu op = Some op' →
  Operation.attrsUnique op'.
Proof.
  unfold Operation.attrsUnique. intros Hunique.
  destruct mu as [name value|name|idx value]; simpl.
  - intros [= <-]. unfold Operation.setAttr, Operation.getAttrs. simpl.
    by apply setAttr_scan_NoDup.
  - intros [= <-]. unfold Operation.removeAttr.
    destruct (Operation.removeAttr_scan _ _) as [newAttrs|] eqn:Hscan; [|done].
    by apply (removeAttr_scan_gone _ _ _ Hunique Hscan).
  - unfold Operation.setOperand. case_decide; [|done]. by intros [= <-].
Qed.

Lemma applyMutations_attrsUnique mus op op' :
  Operation.attrsUnique op →
  Operation.applyMutations mus op = Some op' →
  Operation.attrsUnique op'.
Proof.
  revert op. induction mus as [|mu mus IH]; intros op Hunique; simpl.
  - by intros [= <-].
  - destruct (Operation.applyMutation mu op) as [op1|] eqn:Hop1; [|done].
    simpl. apply IH. by apply applyMutation_attrsUnique with mu op.
Qed.
End Mutations.

(** ** Attributes: set, get, remove *)






Lemma scenario_attrsUnique : Operation.attrsUnique Scenario.addNode.
Proof.
  unfold Operation.attrsUnique. simpl. apply NoDup_singleton.
Qed.




Lemma scenario_hasAttr :
  Operation.hasAttr Scenario.overflow_name Scenario.addNode.
Proof.
  unfold Operation.hasAttr. simpl. apply list_elem_of_singleton. done.
Qed.



(** ** The kind of a node *)

Lemma applyMutations_getOperationKind (NumLowBitsAvailable : Z)
    (mus : list Operation.Mutation) (op op' : Operation.t) :
  Operation.applyMutations mus op = Some op' →
  Operation.getOperationKind NumLowBitsAvailable op'
  = Operation.getOperationKind NumLowBitsAvailable op.
Proof.
  intros Hrun. unfold Operation.getOperationKind.
  by rewrite (applyMutations_nameAndIsInstruction _ _ _ Hrun).
Qed.

(** C2.  [getOperationKind()] of a node is the kind given by the flag that
    the constructor packed next to the name, and it is still that kind after
    any sequence of [setAttr], [removeAttr] and [setOperand] calls. *)
Theorem getOperationKind_fixed_at_construction (NumLowBitsAvailable : Z)
    (isInstruction : bool) (name : Identifier) (attrs : list NamedAttribute)
    (context : MLIRContextPtr) (location : AttributePtr)
    (operands results : list SSAValuePtr)
    (mus : list Operation.Mutation) (op' : Operation.t) :
  1 <= NumLowBitsAvailable →
  Operation.applyMutations mus
    (Operation.create NumLowBitsAvailable isInstruction name attrs context
       location operands results) = Some op' →
  Operation.getOperationKind NumLowBitsAvailable op'
  = (if isInstruction then Operation.Instruction else Operation.Statement).
Proof.
  intros Hbits Hrun.
  rewrite (applyMutations_getOperationKind _ _ _ _ Hrun).
  unfold Operation.getOperationKind, Operation.create. simpl.
  by rewrite getInt_make.
Qed.

(** X17.  [getName()] of a node is the name the constructor packed, for a
    name that is aligned as the pointer traits promise: the flag stored in
    the same word does not disturb it, and no mutation changes it. *)
Lemma getName_fixed_at_construction (NumLowBitsAvailable : Z)
    (isInstruction : bool) (name : Identifier) (attrs : list NamedAttribute)
    (context : MLIRContextPtr) (location : AttributePtr)
    (operands results : list SSAValuePtr)
    (mus : list Operation.Mutation) (op' : Operation.t) :
  1 <= NumLowBitsAvailable →
  Z.land name (Z.ones NumLowBitsAvailable) = 0 →
  Operation.applyMutations mus
    (Operation.create NumLowBitsAvailable isInstruction name attrs context
       location operands results) = Some op' →
  Operation.getName NumLowBitsAvailable op' = name.
Proof.
  intros Hbits Haligned Hrun. unfold Operation.getName.
  rewrite (applyMutations_nameAndIsInstruction _ _ _ Hrun).
  unfold Operation.create. simpl. by apply getPointer_make.
Qed.

Lemma getOperationKind_fixed_at_construction_witness :
  ∃ op',
    Operation.applyMutations
      [Operation.SetAttr Scenario.overflow_name Scenario.trap_attr;
       Operation.SetOperand 1 Scenario.a;
       Operation.RemoveAttr Scenario.overflow_name;
       Operation.SetAttr Scenario.add_name Scenario.wrap_attr]
      Scenario.addNode = Some op' ∧
    Operation.getOperationKind Scenario.lowBits op' = Operation.Instruction.
Proof.
  eexists. split; [reflexivity|].
  apply (getOperationKind_fixed_at_construction Scenario.lowBits true
    Scenario.add_name [(Scenario.overflow_name, Scenario.wrap_attr)] 64 0
    [Scenario.a; Scenario.b] [Scenario.r]
    [Operation.SetAttr Scenario.overflow_name Scenario.trap_attr;
     Operation.SetOperand 1 Scenario.a;
     Operation.RemoveAttr Scenario.overflow_name;
     Operation.SetAttr Scenario.add_name Scenario.wrap_attr]).
  - unfold Scenario.lowBits. lia.
  - reflexivity.
Defined.

(** ** Operands *)

(** C7.  For an index [idx] below [getNumOperands()], [setOperand(idx, v)]
    followed by [getOperand(idx)] returns [v], and [getOperand(j)] of every
    other index [j] in range is what it was before. *)
Theorem setOperand_getOperand_frame (op : Operation.t) (idx : Z)
    (v : SSAValuePtr) :
  0 <= idx < Operation.getNumOperands op →
  ∃ op',
    Operation.setOperand idx v op = Some op' ∧
    Operation.getOperand idx op' = Some v ∧
    ∀ j, 0 <= j < Operation.getNumOperands op → j ≠ idx →
         Operation.getOperand j op' = Operation.getOperand j op.
Proof.
  intros Hidx. unfold Operation.setOperand. rewrite decide_True by done.
  eexists. split; [reflexivity|].
  unfold Operation.getOperand, Operation.getNumOperands in *. simpl.
  rewrite length_insert. split.
  - rewrite decide_True by done. apply list_lookup_insert_eq. lia.
  - intros j Hj Hne. rewrite !decide_True by done.
    apply list_lookup_insert_ne. lia.
Qed.

Lemma setOperand_getOperand_frame_witness :
  ∃ op',
    Operation.setOperand 1 Scenario.r Scenario.addNode = Some op' ∧
    Operation.getOperand 1 op' = Some Scenario.r ∧
    ∀ j, 0 <= j < Operation.getNumOperands Scenario.addNode → j ≠ 1 →
         Operation.getOperand j op' = Operation.getOperand j Scenario.addNode.
Proof.
  apply (setOperand_getOperand_frame Scenario.addNode 1 Scenario.r).
  unfold Operation.getNumOperands. simpl. lia.
Defined.

(** ** Typed views *)

(** C3.  [getAs<T>()] returns a wrapper that holds the node pointer when
    [T::isClassFor] accepts the node and the null pointer when it rejects it.
    It has no other outcome (the functions are total), and the variant for a
    const node returns the const wrapper [ConstOpPointer]. *)
Theorem getAs_node_or_null (T : Type) `{!TypedView.OpClass T} (m : Memory)
    (this : Z) :
  TypedView.getOperation (TypedView.value (TypedView.getAs T m this))
  = (if TypedView.isClassFor T m this then this else nullptr) ∧
  TypedView.getOperation
    (TypedView.const_value (TypedView.getAs_const T m this))
  = (if TypedView.isClassFor T m this then this else nullptr).
Proof.
  unfold TypedView.getAs, TypedView.getAs_const. simpl.
  split; by destruct (TypedView.isClassFor T m this).
Qed.

Lemma isValid_getAs (T : Type) `{!TypedView.OpClass T} (m : Memory)
    (this : Z) :
  this ≠ nullptr →
  TypedView.isValid (TypedView.getAs T m this) = TypedView.isClassFor T m this ∧
  TypedView.isValidConst (TypedView.getAs_const T m this)
  = TypedView.isClassFor T m this.
Proof.
  intros Hthis. unfold TypedView.isValid, TypedView.isValidConst,
    TypedView.getAs, TypedView.getAs_const. simpl.
  destruct (TypedView.isClassFor T m this).
  - apply Z.eqb_neq in Hthis. by rewrite Hthis.
  - done.
Qed.

(** C8.  [is<T>()] is the value of [T::isClassFor] on the node, computed
    without a wrapper; so, the node pointer not being null, [is<T>()] is true
    exactly when the wrapper returned by [getAs<T>()] is valid. *)
Theorem is_equals_isClassFor (T : Type) `{!TypedView.OpClass T} (m : Memory)
    (this : Z) :
  TypedView.is_ T m this = TypedView.isClassFor T m this ∧
  (this ≠ nullptr →
   (TypedView.is_ T m this = true
    ↔ TypedView.isValid (TypedView.getAs T m this) = true) ∧
   (TypedView.is_ T m this = true
    ↔ TypedView.isValidConst (TypedView.getAs_const T m this) = true)).
Proof.
  split; [done|]. intros Hthis.
  destruct (isValid_getAs T m this Hthis) as [-> ->]. done.
Qed.

Lemma is_equals_isClassFor_witness :
  Scenario.addAddr ≠ nullptr ∧
  TypedView.is_ Scenario.AddOp Scenario.memory Scenario.addAddr = true ∧
  TypedView.isValid
    (TypedView.getAs Scenario.AddOp Scenario.memory Scenario.addAddr) = true.
Proof.
  assert (Hthis : Scenario.addAddr ≠ nullptr) by (vm_compute; discriminate).
  destruct (is_equals_isClassFor Scenario.AddOp Scenario.memory
    Scenario.addAddr) as [His Hvalid].
  destruct (Hvalid Hthis) as [[Hto _] _].
  assert (Hclass : TypedView.isClassFor Scenario.AddOp Scenario.memory
                     Scenario.addAddr = true) by (vm_compute; reflexivity).
  rewrite <- His in Hclass.
  split; [exact Hthis|]. split; [exact Hclass|exact (Hto Hclass)].
Defined.

(** ** Accessor iterators *)
Section Iterators.
Import IndexedAccessorIterator.

Lemma op_eq_spec (lhs rhs : t) :
  op_eq lhs rhs = true ↔ object lhs = object rhs ∧ index lhs = index rhs.
Proof.
  unfold op_eq. rewrite andb_true_iff, !bool_decide_eq_true. done.
Qed.

Lemma op_plus_assign_index (it : t) (offset : Z) :
  index (op_plus_assign it offset) = (index it + offset) mod 2 ^ 32.
Proof. unfold op_plus_assign. simpl. apply to_unsigned_to_ptrdiff. Qed.

Lemma op_minus_assign_index (it : t) (offset : Z) :
  index (op_minus_assign it offset) = (index it - offset) mod 2 ^ 32.
Proof. unfold op_minus_assign. simpl. apply to_unsigned_to_ptrdiff. Qed.

(** C4, as the code has it.  [operator==] compares the owning object and the
    index and returns [false], without asserting, when the owners differ.
    [operator<] and [operator-] assert that the owners are the same: with the
    same owner they compare, respectively subtract, the indices alone, and
    with different owners the assertion fails. *)
Theorem iterator_comparisons (lhs rhs : t) :
  (op_eq lhs rhs = true ↔ object lhs = object rhs ∧ index lhs = index rhs) ∧
  (object lhs = object rhs →
   op_lt lhs rhs = Returns (bool_decide (index lhs < index rhs)) ∧
   op_minus lhs rhs = Returns ((index lhs - index rhs) mod 2 ^ 32)) ∧
  (object lhs ≠ object rhs →
   op_eq lhs rhs = false ∧
   op_lt lhs rhs = AssertFails "incompatible iterators" ∧
   op_minus lhs rhs = AssertFails "incompatible iterators").
Proof.
  split; [apply op_eq_spec|]. split.
  - intros Hsame. unfold op_lt, op_minus. rewrite !decide_True by done.
    split; [done|]. f_equal. apply to_ptrdiff_small.
    pose proof (to_unsigned_range (index lhs - index rhs)) as Hrange.
    assert (Hpow : (2 : Z) ^ 32 < 2 ^ 63) by reflexivity.
    unfold is_unsigned, is_ptrdiff, to_unsigned in *. lia.
  - intros Hdiffer. unfold op_eq, op_lt, op_minus.
    rewrite !decide_False by done. by rewrite bool_decide_eq_false_2.
Qed.

Lemma iterator_comparisons_witness :
  op_lt (mk Scenario.addAddr 0) (mk Scenario.addAddr 2) = Returns true ∧
  op_minus (mk Scenario.addAddr 2) (mk Scenario.addAddr 0) = Returns 2 ∧
  op_eq (mk Scenario.addAddr 0) (mk 2048 0) = false ∧
  op_lt (mk Scenario.addAddr 0) (mk 2048 2)
  = AssertFails "incompatible iterators".
Proof.
  destruct (iterator_comparisons (mk Scenario.addAddr 0)
    (mk Scenario.addAddr 2)) as (_ & Hsame & _).
  destruct (iterator_comparisons (mk Scenario.addAddr 2)
    (mk Scenario.addAddr 0)) as (_ & Hsame' & _).
  destruct (iterator_comparisons (mk Scenario.addAddr 0) (mk 2048 0))
    as (_ & _ & Hdiffer).
  destruct (iterator_comparisons (mk Scenario.addAddr 0) (mk 2048 2))
    as (_ & _ & Hdiffer').
  split; [exact (proj1 (Hsame eq_refl))|].
  split; [exact (proj2 (Hsame' eq_refl))|].
  split.
  - apply Hdiffer. vm_compute. discriminate.
  - apply Hdiffer'. vm_compute. discriminate.
Defined.

(** C4, as the claim has it, fails: the two iterators below belong to
    different objects, and comparing them with [operator==] returns [false]
    to the caller; no assertion is involved. *)
Lemma op_eq_differing_owners_returns :
  object (mk 1024 0) ≠ object (mk 2048 0) ∧
  op_eq (mk 1024 0) (mk 2048 0) = false.
Proof. split; [simpl; lia|reflexivity]. Qed.

(** C10.  [operator+=] and [operator-=] have no bounds check: from index [i],
    adding the offset [k] gives the index [(i + k) mod 2^32] and subtracting
    it gives [(i + (- k)) mod 2^32], on the same object; stepping back from
    index 0 wraps to [2^32 - 1]. *)
Theorem offset_arithmetic_wraps (it : t) (k : Z) :
  index (op_plus_assign it k) = (index it + k) mod 2 ^ 32 ∧
  index (op_minus_assign it k) = (index it + - k) mod 2 ^ 32 ∧
  object (op_plus_assign it k) = object it ∧
  object (op_minus_assign it k) = object it ∧
  index (op_minus_assign (mk (object it) 0) 1) = 2 ^ 32 - 1 ∧
  index (op_plus_assign (mk (object it) 0) (-1)) = 2 ^ 32 - 1.
Proof.
  rewrite op_plus_assign_index, op_minus_assign_index.
  rewrite Z.add_opp_r. split_and!; reflexivity.
Qed.
End Iterators.

(** ** Traversals *)
Section Traversal.
Import IndexedAccessorIterator.

(** Walking a cursor over an object whose by-index accessor reads the list
    [l]: from position [k] the loop collects the rest of [l], given one unit
    of fuel per loop test. *)
Lemma traverse_collects {E : Type} (deref : t → option E) (this : Z)
    (l : list E) :
  Z.of_nat (length l) < 2 ^ 32 →
  (∀ (k : nat) x, l !! k = Some x → deref (mk this (Z.of_nat k)) = Some x) →
  ∀ (d k fuel : nat),
    (k + d)%nat = length l → (d < fuel)%nat →
    traverse deref fuel (mk this (Z.of_nat k)) (mk this (Z.of_nat (length l)))
    = Some (drop k l).
Proof.
  intros Hlen Hderef. induction d as [|d IH]; intros k fuel Hk Hfuel.
  - destruct fuel as [|fuel]; [lia|]. simpl.
    assert (Hend : k = length l) by lia. subst k.
    unfold op_ne, op_eq. simpl. rewrite !bool_decide_eq_true_2 by done. simpl.
    by rewrite drop_all.
  - destruct fuel as [|fuel]; [lia|]. simpl.
    unfold op_ne, op_eq. simpl.
    rewrite (bool_decide_eq_false_2 (Z.of_nat k = Z.of_nat (length l))) by lia.
    rewrite andb_false_r. simpl.
    destruct (lookup_lt_is_Some_2 l k ltac:(lia)) as [x Hx].
    rewrite (Hderef _ _ Hx). simpl.
    assert (Hstep : op_incr (mk this (Z.of_nat k)) = mk this (Z.of_nat (S k))).
    { unfold op_incr, op_plus_assign. simpl. f_equal.
      rewrite to_unsigned_to_ptrdiff. rewrite Z.mod_small by lia. lia. }
    rewrite Hstep, (IH (S k) fuel) by lia. simpl.
    by rewrite (drop_S _ _ _ Hx).
Qed.

Lemma getOperand_lookup (op : Operation.t) (k : nat) (x : SSAValuePtr) :
  Operation.operands op !! k = Some x →
  Operation.getOperand (Z.of_nat k) op = Some x.
Proof.
  intros Hx. unfold Operation.getOperand, Operation.getNumOperands.
  pose proof (lookup_lt_Some _ _ _ Hx).
  rewrite decide_True by lia. by rewrite Nat2Z.id.
Qed.

Lemma getResult_lookup (op : Operation.t) (k : nat) (x : SSAValuePtr) :
  Operation.results op !! k = Some x →
  Operation.getResult (Z.of_nat k) op = Some x.
Proof.
  intros Hx. unfold Operation.getResult, Operation.getNumResults.
  pose proof (lookup_lt_Some _ _ _ Hx).
  rewrite decide_True by lia. by rewrite Nat2Z.id.
Qed.

(** C6.  On a live node, the loop from [operand_begin()] to [operand_end()]
    ends and yields exactly [getNumOperands()] elements, the [i]-th being
    [getOperand(i)]; likewise the loop over the results with
    [getNumResults()] and [getResult(i)].  The counts are [unsigned]. *)
Theorem iteration_yields_all (m : Memory) (this : Z) (op : Operation.t)
    (fuel : nat) :
  m !! this = Some op →
  is_unsigned (Operation.getNumOperands op) →
  is_unsigned (Operation.getNumResults op) →
  Operation.getNumOperands op < Z.of_nat fuel →
  Operation.getNumResults op < Z.of_nat fuel →
  (∃ vs, OperationRange.forOperands m fuel this = Some vs ∧
         Z.of_nat (length vs) = Operation.getNumOperands op ∧
         ∀ i, 0 <= i < Operation.getNumOperands op →
              vs !! Z.to_nat i = Operation.getOperand i op) ∧
  (∃ vs, OperationRange.forResults m fuel this = Some vs ∧
         Z.of_nat (length vs) = Operation.getNumResults op ∧
         ∀ i, 0 <= i < Operation.getNumResults op →
              vs !! Z.to_nat i = Operation.getResult i op).
Proof.
  intros Hlive [_ Hoperands] [_ Hresults] Hfuel Hfuel'. split.
  - exists (Operation.operands op).
    unfold OperationRange.forOperands, OperationRange.getOperands,
      OperationRange.operand_end, OperationRange.operand_begin.
    rewrite Hlive. simpl. split_and!.
    + unfold Operation.getNumOperands in *.
      rewrite (traverse_collects (OperandIterator.deref m) this
                 (Operation.operands op) Hoperands) with
        (d := length (Operation.operands op)) (k := 0%nat); [done| |lia|lia].
      intros k x Hx. unfold OperandIterator.deref. simpl. rewrite Hlive. simpl.
      by apply getOperand_lookup.
    + done.
    + intros i Hi. unfold Operation.getOperand. by rewrite decide_True.
  - exists (Operation.results op).
    unfold OperationRange.forResults, OperationRange.getResults,
      OperationRange.result_end, OperationRange.result_begin.
    rewrite Hlive. simpl. split_and!.
    + unfold Operation.getNumResults in *.
      rewrite (traverse_collects (ResultIterator.deref m) this
                 (Operation.results op) Hresults) with
        (d := length (Operation.results op)) (k := 0%nat); [done| |lia|lia].
      intros k x Hx. unfold ResultIterator.deref. simpl. rewrite Hlive. simpl.
      by apply getResult_lookup.
    + done.
    + intros i Hi. unfold Operation.getResult. by rewrite decide_True.
Qed.
End Traversal.

Lemma iteration_yields_all_witness :
  (∃ vs, OperationRange.forOperands Scenario.memory 3 Scenario.addAddr
         = Some vs ∧
         Z.of_nat (length vs) = Operation.getNumOperands Scenario.addNode ∧
         ∀ i, 0 <= i < Operation.getNumOperands Scenario.addNode →
              vs !! Z.to_nat i = Operation.getOperand i Scenario.addNode) ∧
  (∃ vs, OperationRange.forResults Scenario.memory 3 Scenario.addAddr
         = Some vs ∧
         Z.of_nat (length vs) = Operation.getNumResults Scenario.addNode ∧
         ∀ i, 0 <= i < Operation.getNumResults Scenario.addNode →
              vs !! Z.to_nat i = Operation.getResult i Scenario.addNode).
Proof.
  apply (iteration_yields_all Scenario.memory Scenario.addAddr
           Scenario.addNode 3).
  - vm_compute. reflexivity.
  - vm_compute. split; discriminate || reflexivity.
  - vm_compute. split; discriminate || reflexivity.
  - vm_compute. reflexivity.
  - vm_compute. reflexivity.
Defined.

(** ** The construction descriptor *)
Section Descriptor.
Variable Identifier_get : string → MLIRContextPtr → Identifier.

(** C9.  [addAttribute] appends without looking at the names already there:
    two calls with the same name leave two more entries with that name at
    the end of [attributes]. *)
Theorem addAttribute_appends_duplicate (s : OperationState.t) (name : string)
    (attr1 attr2 : AttributePtr) :
  let s' := OperationState.addAttribute Identifier_get name attr2
              (OperationState.addAttribute Identifier_get name attr1 s) in
  let id := Identifier_get name (OperationState.context s) in
  OperationState.attributes s'
  = OperationState.attributes s ++ [(id, attr1); (id, attr2)] ∧
  attrCount id (OperationState.attributes s')
  = (attrCount id (OperationState.attributes s) + 2)%nat.
Proof.
  simpl. rewrite <- app_assoc. split; [done|].
  unfold attrCount. rewrite filter_app, length_app. simpl.
  rewrite !filter_cons, !decide_True by done. done.
Qed.
End Descriptor.

(** ** The scenarios of the node named "add" *)

Example scenario_add_node :
  Operation.getNumOperands Scenario.addNode = 2 ∧
  Operation.getNumResults Scenario.addNode = 1 ∧
  Operation.getName Scenario.lowBits Scenario.addNode = Scenario.add_name ∧
  Operation.getOperationKind Scenario.lowBits Scenario.addNode
  = Operation.Instruction ∧
  Operation.getAttr Scenario.overflow_name Scenario.addNode
  = Scenario.wrap_attr ∧
  TypedView.isValid
    (TypedView.getAs Scenario.AddOp Scenario.memory Scenario.addAddr) = true.
Proof. vm_compute. by repeat split. Qed.

Example scenario_remove_overflow :
  let first := Operation.removeAttr Scenario.overflow_name Scenario.addNode in
  let second := Operation.removeAttr Scenario.overflow_name first.2 in
  first.1 = Operation.Removed ∧
  second.1 = Operation.NotFound ∧
  Operation.getAttr Scenario.overflow_name second.2 = nullptr.
Proof. vm_compute. by repeat split. Qed.

Example scenario_descriptor_duplicates :
  OperationState.attributes
    (OperationState.addAttribute (λ _ _, Scenario.overflow_name) "overflow"
       Scenario.trap_attr
       (OperationState.addAttribute (λ _ _, Scenario.overflow_name) "overflow"
          Scenario.wrap_attr
          (OperationState.createWithIdentifier 64 0 Scenario.add_name)))
  = [(Scenario.overflow_name, Scenario.wrap_attr);
     (Scenario.overflow_name, Scenario.trap_attr)].
Proof. reflexivity. Qed.

Example scenario_iterator_steps_back :
  IndexedAccessorIterator.index
    (IndexedAccessorIterator.op_minus_assign
       (OperationRange.operand_begin Scenario.addAddr) 1) = 4294967295.
Proof. reflexivity. Qed.

(** * Further properties of the header *)

(** ** Attribute lookup *)
Section Lookup.
Implicit Types (op : Operation.t) (elts : list NamedAttribute)
  (name : Identifier) (value : AttributePtr).

Lemma getAttr_scan_first elts_before name value elts_after :
  name ∉ elts_before.*1 →
  Operation.getAttr_scan (elts_before ++ (name, value) :: elts_after) name
  = value.
Proof.
  induction elts_before as [|elt elts_before IH]; simpl.
  - intros _. by rewrite decide_True.
  - rewrite not_elem_of_cons. intros [Hne Hnotin].
    rewrite decide_False by done. by apply IH.
Qed.

(** X1.  [getAttr] returns at the first entry that carries the name: entries
    with the same name further down the list are never seen. *)
Theorem getAttr_first_entry_wins op elts_before name value elts_after :
  Operation.getAttrs op = elts_before ++ (name, value) :: elts_after →
  name ∉ elts_before.*1 →
  Operation.getAttr name op = value.
Proof.
  intros Hattrs Hnotin. unfold Operation.getAttr. rewrite Hattrs.
  by apply getAttr_scan_first.
Qed.

Lemma getAttr_first_entry_wins_witness :
  Operation.getAttr Scenario.overflow_name Fixtures.doubled
  = Scenario.wrap_attr.
Proof.
  apply (getAttr_first_entry_wins Fixtures.doubled []
           Scenario.overflow_name Scenario.wrap_attr
           [(Scenario.add_name, Scenario.trap_attr);
            (Scenario.overflow_name, Scenario.trap_attr)]).
  - reflexivity.
  - apply not_elem_of_nil.
Defined.

Lemma getAttr_scan_present elts name :
  Forall (λ elt, elt.2 ≠ nullptr) elts →
  name ∈ elts.*1 → Operation.getAttr_scan elts name ≠ nullptr.
Proof.
  induction elts as [|elt elts IH]; [by intros _ ?%elem_of_nil|].
  rewrite Forall_cons, fmap_cons, elem_of_cons. intros [Hnonnull Hrest] Hin.
  simpl. destruct (decide (elt.1 = name)) as [Heq|Hne]; [done|].
  apply IH; [done|]. destruct Hin as [?|?]; [congruence|done].
Qed.

(** X2.  On a node none of whose entries holds a null attribute pointer,
    [getAttr] returns null exactly for the names that have no entry. *)
Theorem getAttr_null_iff_absent op name :
  Forall (λ elt, elt.2 ≠ nullptr) (Operation.getAttrs op) →
  Operation.getAttr name op = nullptr ↔ ¬ Operation.hasAttr name op.
Proof.
  intros Hnonnull. unfold Operation.getAttr, Operation.hasAttr. split.
  - intros Hnull Hin. by apply (getAttr_scan_present _ _ Hnonnull Hin).
  - apply getAttr_scan_absent.
Qed.

Lemma getAttr_null_iff_absent_witness :
  Operation.getAttr Scenario.add_name Scenario.addNode = nullptr ↔
  ¬ Operation.hasAttr Scenario.add_name Scenario.addNode.
Proof.
  apply (getAttr_null_iff_absent Scenario.addNode Scenario.add_name).
  apply Forall_cons. split; [vm_compute; discriminate|apply Forall_nil_2].
Defined.

(** X3.  The [StringRef] overload of [getAttr] returns what the [Identifier]
    overload returns for the interned name, on every node on whose names
    [Identifier::is] holds exactly for the string interned to that name. *)
Theorem getAttr_str_agrees (Identifier_is : Identifier → string → bool)
    (id : Identifier) (str : string) op :
  Forall (λ elt, Identifier_is elt.1 str = true ↔ elt.1 = id)
    (Operation.getAttrs op) →
  Operation.getAttr_str Identifier_is str op = Operation.getAttr id op.
Proof.
  unfold Operation.getAttr_str, Operation.getAttr.
  induction (Operation.getAttrs op) as [|elt elts IH]; [done|].
  rewrite Forall_cons. intros [Hhead Hrest]. simpl.
  destruct (decide (elt.1 = id)) as [Heq|Hne].
  - by rewrite (proj2 Hhead Heq).
  - destruct (Identifier_is elt.1 str) eqn:His.
    + by destruct Hne, (proj1 Hhead).
    + by apply IH.
Qed.

Lemma getAttr_str_agrees_witness :
  Operation.getAttr_str Fixtures.Identifier_is "overflow" Fixtures.doubled
  = Operation.getAttr Scenario.overflow_name Fixtures.doubled.
Proof.
  apply (getAttr_str_agrees Fixtures.Identifier_is Scenario.overflow_name
           "overflow" Fixtures.doubled).
  repeat (apply Forall_cons; split; [vm_compute; split; congruence|]).
  apply Forall_nil_2.
Defined.

(** X4.  [getAttrOfType] returns either null or the very pointer that
    [getAttr] returns: null when the name has no entry or the entry's value
    is null or of another class, the attribute when its class accepts it. *)
Theorem getAttrOfType_null_or_getAttr (A : Type) `{!Operation.AttrClass A}
    op name :
  (¬ Operation.hasAttr name op →
   Operation.getAttrOfType A name op = nullptr) ∧
  (Operation.getAttrOfType A name op ≠ nullptr →
   Operation.getAttrOfType A name op = Operation.getAttr name op ∧
   Operation.classof A (Operation.getAttr name op) = true ∧
   Operation.hasAttr name op) ∧
  (Operation.getAttr name op ≠ nullptr →
   Operation.classof A (Operation.getAttr name op) = true →
   Operation.getAttrOfType A name op = Operation.getAttr name op).
Proof.
  unfold Operation.getAttrOfType, Operation.dyn_cast_or_null. split_and!.
  - intros Habsent. unfold Operation.getAttr, Operation.hasAttr in *.
    by rewrite getAttr_scan_absent.
  - destruct (Z.eqb_spec (Operation.getAttr name op) nullptr) as [Hnull|Hnonnull];
      [done|].
    destruct (Operation.classof A _) eqn:Hclass; [|done]. intros _.
    split_and!; [done..|].
    unfold Operation.hasAttr.
    destruct (decide (name ∈ (Operation.getAttrs op).*1)) as [?|Habsent];
      [done|].
    destruct Hnonnull. by apply getAttr_scan_absent.
  - intros Hnonnull Hclass. apply Z.eqb_neq in Hnonnull.
    by rewrite Hnonnull, Hclass.
Qed.

Lemma getAttrOfType_null_or_getAttr_witness :
  Operation.getAttrOfType Fixtures.WrapAttr Scenario.overflow_name
    Scenario.addNode = Scenario.wrap_attr ∧
  Operation.getAttrOfType Fixtures.WrapAttr Scenario.add_name
    Scenario.addNode = nullptr.
Proof.
  destruct (getAttrOfType_null_or_getAttr Fixtures.WrapAttr Scenario.addNode
              Scenario.overflow_name) as (_ & _ & Hpresent).
  destruct (getAttrOfType_null_or_getAttr Fixtures.WrapAttr Scenario.addNode
              Scenario.add_name) as (Habsent & _ & _).
  split.
  - rewrite Hpresent; [reflexivity|vm_compute; discriminate|reflexivity].
  - apply Habsent. unfold Operation.hasAttr. simpl.
    rewrite list_elem_of_singleton. vm_compute. discriminate.
Defined.
End Lookup.

(** ** Iterator arithmetic *)
Section IteratorArithmetic.
Import IndexedAccessorIterator.

Lemma op_minus_same_owner (lhs rhs : t) :
  object lhs = object rhs →
  op_minus lhs rhs = Returns ((index lhs - index rhs) mod 2 ^ 32).
Proof.
  intros Hsame. unfold op_minus. rewrite decide_True by done. f_equal.
  apply to_ptrdiff_small.
  pose proof (to_unsigned_range (index lhs - index rhs)) as Hrange.
  assert (Hpow : (2 : Z) ^ 32 < 2 ^ 63) by reflexivity.
  unfold is_unsigned, is_ptrdiff, to_unsigned in *. lia.
Qed.

Lemma op_lt_same_owner (lhs rhs : t) :
  object lhs = object rhs →
  op_lt lhs rhs = Returns (bool_decide (index lhs < index rhs)).
Proof. intros Hsame. unfold op_lt. by rewrite decide_True. Qed.

(** X5.  [operator-] never yields a negative distance: between two iterators
    of one object it returns the difference of the indices when the left one
    is not behind, and that difference plus [2^32] when it is behind. *)
Theorem op_minus_never_negative (lhs rhs : t) :
  object lhs = object rhs →
  is_unsigned (index lhs) → is_unsigned (index rhs) →
  ∃ d, op_minus lhs rhs = Returns d ∧
       0 <= d < 2 ^ 32 ∧
       (index rhs <= index lhs → d = index lhs - index rhs) ∧
       (index lhs < index rhs → d = index lhs - index rhs + 2 ^ 32).
Proof.
  intros Hsame [Hl0 Hl1] [Hr0 Hr1].
  rewrite (op_minus_same_owner _ _ Hsame). eexists. split; [done|].
  split; [apply Z.mod_pos_bound; lia|]. split; intros Hle.
  - apply Z.mod_small. lia.
  - rewrite <- (Z.mod_add _ 1) by lia. apply Z.mod_small. lia.
Qed.

Lemma op_minus_never_negative_witness :
  ∃ d, op_minus (mk Scenario.addAddr 0) (mk Scenario.addAddr 2) = Returns d ∧
       0 <= d < 2 ^ 32 ∧
       (2 <= 0 → d = 0 - 2) ∧
       (0 < 2 → d = 0 - 2 + 2 ^ 32).
Proof.
  apply (op_minus_never_negative (mk Scenario.addAddr 0)
           (mk Scenario.addAddr 2)).
  - reflexivity.
  - vm_compute. split; discriminate || reflexivity.
  - vm_compute. split; discriminate || reflexivity.
Defined.

(** X6.  [operator+=] and [operator-=] with the same offset undo each other,
    in either order, whatever the offset and however far the index wrapped
    in between. *)
Theorem plus_assign_minus_assign_round_trip (it : t) (k : Z) :
  is_unsigned (index it) →
  op_minus_assign (op_plus_assign it k) k = it ∧
  op_plus_assign (op_minus_assign it k) k = it.
Proof.
  intros Hrange. destruct it as [obj i]. simpl in Hrange.
  unfold op_minus_assign, op_plus_assign. simpl.
  rewrite !to_unsigned_to_ptrdiff.
  rewrite Zminus_mod_idemp_l, Zplus_mod_idemp_l.
  replace (i + k - k) with i by lia. replace (i - k + k) with i by lia.
  unfold is_unsigned in Hrange. by rewrite Z.mod_small.
Qed.

Lemma plus_assign_minus_assign_round_trip_witness :
  op_minus_assign (op_plus_assign (mk Scenario.addAddr 1) (-5)) (-5)
  = mk Scenario.addAddr 1 ∧
  op_plus_assign (op_minus_assign (mk Scenario.addAddr 1) (-5)) (-5)
  = mk Scenario.addAddr 1.
Proof.
  apply (plus_assign_minus_assign_round_trip (mk Scenario.addAddr 1) (-5)).
  vm_compute. split; discriminate || reflexivity.
Defined.

(** X7.  Offsets add up: two [operator+=] steps by [a] and [b] land where
    one step by [a + b] lands, and likewise for [operator-=]; the wrap-around
    of the intermediate index is not observable. *)
Theorem offset_steps_compose (it : t) (a b : Z) :
  op_plus_assign (op_plus_assign it a) b = op_plus_assign it (a + b) ∧
  op_minus_assign (op_minus_assign it a) b = op_minus_assign it (a + b).
Proof.
  unfold op_plus_assign, op_minus_assign. simpl.
  rewrite !to_unsigned_to_ptrdiff.
  rewrite Zplus_mod_idemp_l, Zminus_mod_idemp_l.
  split; f_equal; f_equal; lia.
Qed.

(** X8.  On the iterators of one object exactly one of [lhs < rhs],
    [lhs == rhs] and [rhs < lhs] holds, and neither [operator<] asserts. *)
Theorem op_lt_op_eq_trichotomy (lhs rhs : t) :
  object lhs = object rhs →
  (op_lt lhs rhs = Returns true ∧ op_eq lhs rhs = false
   ∧ op_lt rhs lhs = Returns false) ∨
  (op_lt lhs rhs = Returns false ∧ op_eq lhs rhs = true
   ∧ op_lt rhs lhs = Returns false) ∨
  (op_lt lhs rhs = Returns false ∧ op_eq lhs rhs = false
   ∧ op_lt rhs lhs = Returns true).
Proof.
  intros Hsame.
  rewrite (op_lt_same_owner lhs rhs Hsame), (op_lt_same_owner rhs lhs) by done.
  unfold op_eq. rewrite (bool_decide_eq_true_2 _ Hsame). simpl.
  destruct (Z.lt_trichotomy (index lhs) (index rhs)) as [Hlt|[Heq|Hgt]].
  - left. rewrite bool_decide_eq_true_2, !bool_decide_eq_false_2 by lia. done.
  - right; left.
    rewrite (bool_decide_eq_true_2 _ Heq), !bool_decide_eq_false_2 by lia. done.
  - right; right.
    rewrite (bool_decide_eq_true_2 (index rhs < index lhs)),
      !bool_decide_eq_false_2 by lia. done.
Qed.

Lemma op_lt_op_eq_trichotomy_witness :
  op_lt (mk Scenario.addAddr 0) (mk Scenario.addAddr 2) = Returns true ∧
  op_eq (mk Scenario.addAddr 0) (mk Scenario.addAddr 2) = false ∧
  op_lt (mk Scenario.addAddr 2) (mk Scenario.addAddr 0) = Returns false.
Proof.
  destruct (op_lt_op_eq_trichotomy (mk Scenario.addAddr 0)
              (mk Scenario.addAddr 2) eq_refl) as [H|[H|H]].
  - exact H.
  - destruct H as (_ & H & _). vm_compute in H. discriminate H.
  - destruct H as (H & _ & _). vm_compute in H. discriminate H.
Defined.

(** X9.  [operator<] is a strict order: no iterator is below itself, and
    from [a < b] and [b < c] follows [a < c], without an assertion failing. *)
Theorem op_lt_strict_order (a b c : t) :
  op_lt a a = Returns false ∧
  (op_lt a b = Returns true → op_lt b c = Returns true →
   op_lt a c = Returns true).
Proof.
  split.
  - rewrite op_lt_same_owner by done. by rewrite bool_decide_eq_false_2 by lia.
  - unfold op_lt.
    destruct (decide (object a = object b)) as [Hab|]; [|done].
    destruct (decide (object b = object c)) as [Hbc|]; [|done].
    rewrite decide_True by congruence.
    intros [= Hlt%bool_decide_eq_true] [= Hlt'%bool_decide_eq_true].
    by rewrite bool_decide_eq_true_2 by lia.
Qed.

Lemma op_lt_strict_order_witness :
  op_lt (mk Scenario.addAddr 0) (mk Scenario.addAddr 0) = Returns false ∧
  op_lt (mk Scenario.addAddr 0) (mk Scenario.addAddr 2) = Returns true.
Proof.
  destruct (op_lt_strict_order (mk Scenario.addAddr 0) (mk Scenario.addAddr 1)
              (mk Scenario.addAddr 2)) as [Hirrefl Htrans].
  split; [exact Hirrefl|]. apply Htrans; reflexivity.
Defined.
End IteratorArithmetic.

(** ** Cursors over a live node *)
Section Cursors.
Import IndexedAccessorIterator.

Lemma op_plus_assign_from_begin (this i : Z) :
  is_unsigned i → op_plus_assign (mk this 0) i = mk this i.
Proof.
  intros Hi. unfold op_plus_assign. simpl. f_equal.
  rewrite to_unsigned_to_ptrdiff. by apply Z.mod_small.
Qed.

(** X10.  Random access on a live node with [unsigned] counts:
    [operand_begin() + i] dereferences to [getOperand(i)] for every [i]
    below [getNumOperands()], [operand_begin() + getNumOperands()] is
    [operand_end()], and [operand_end() - operand_begin()] is
    [getNumOperands()]; the same holds for the result iterators. *)
Theorem begin_plus_offset (m : Memory) (this : Z) (op : Operation.t) :
  m !! this = Some op →
  is_unsigned (Operation.getNumOperands op) →
  is_unsigned (Operation.getNumResults op) →
  (∀ i, 0 <= i < Operation.getNumOperands op →
        OperandIterator.deref m
          (op_plus_assign (OperationRange.operand_begin this) i)
        = Operation.getOperand i op) ∧
  (∃ last, OperationRange.operand_end m this = Some last ∧
           last = op_plus_assign (OperationRange.operand_begin this)
                    (Operation.getNumOperands op) ∧
           op_minus last (OperationRange.operand_begin this)
           = Returns (Operation.getNumOperands op)) ∧
  (∀ i, 0 <= i < Operation.getNumResults op →
        ResultIterator.deref m
          (op_plus_assign (OperationRange.result_begin this) i)
        = Operation.getResult i op) ∧
  (∃ last, OperationRange.result_end m this = Some last ∧
           last = op_plus_assign (OperationRange.result_begin this)
                    (Operation.getNumResults op) ∧
           op_minus last (OperationRange.result_begin this)
           = Returns (Operation.getNumResults op)).
Proof.
  intros Hlive Hoperands Hresults.
  unfold OperationRange.operand_begin, OperationRange.result_begin,
    OperationRange.operand_end, OperationRange.result_end.
  rewrite Hlive. simpl. split_and!.
  - intros i Hi.
    rewrite op_plus_assign_from_begin by (unfold is_unsigned in *; lia).
    unfold OperandIterator.deref. simpl. by rewrite Hlive.
  - eexists. split; [done|].
    rewrite op_plus_assign_from_begin by done. split; [done|].
    rewrite op_minus_same_owner by done. simpl.
    rewrite Z.sub_0_r. f_equal. by apply Z.mod_small.
  - intros i Hi.
    rewrite op_plus_assign_from_begin by (unfold is_unsigned in *; lia).
    unfold ResultIterator.deref. simpl. by rewrite Hlive.
  - eexists. split; [done|].
    rewrite op_plus_assign_from_begin by done. split; [done|].
    rewrite op_minus_same_owner by done. simpl.
    rewrite Z.sub_0_r. f_equal. by apply Z.mod_small.
Qed.

Lemma begin_plus_offset_witness :
  OperandIterator.deref Scenario.memory
    (op_plus_assign (OperationRange.operand_begin Scenario.addAddr) 1)
  = Some Scenario.b ∧
  ResultIterator.deref Scenario.memory
    (op_plus_assign (OperationRange.result_begin Scenario.addAddr) 0)
  = Some Scenario.r.
Proof.
  destruct (begin_plus_offset Scenario.memory Scenario.addAddr
              Scenario.addNode) as (Hoperand & _ & Hresult & _).
  - vm_compute. reflexivity.
  - vm_compute. split; discriminate || reflexivity.
  - vm_compute. split; discriminate || reflexivity.
  - split.
    + rewrite Hoperand; [reflexivity|vm_compute; split; discriminate || reflexivity].
    + rewrite Hresult; [reflexivity|vm_compute; split; discriminate || reflexivity].
Defined.

(** X11.  A loop whose two bounds are iterators of different objects never
    ends normally: the cursor never compares equal to the end, so whatever
    the number of steps allowed the loop is still running, or has
    dereferenced outside its object. *)
Theorem traverse_across_objects {E : Type} (deref : t → option E)
    (fuel : nat) (it last : t) :
  object it ≠ object last →
  traverse deref fuel it last = None.
Proof.
  revert it. induction fuel as [|fuel IH]; intros it Hdiffer; [done|].
  simpl. unfold op_ne, op_eq. rewrite bool_decide_eq_false_2 by done. simpl.
  destruct (deref it) as [x|]; [|done]. simpl.
  rewrite IH; [done|]. done.
Qed.

Lemma traverse_across_objects_witness :
  traverse (OperandIterator.deref Fixtures.memory2) 5
    (OperationRange.operand_begin Scenario.addAddr)
    (mk Fixtures.otherAddr 2) = None.
Proof.
  apply (traverse_across_objects (OperandIterator.deref Fixtures.memory2) 5
           (OperationRange.operand_begin Scenario.addAddr)
           (mk Fixtures.otherAddr 2)).
  vm_compute. discriminate.
Defined.

(** X12.  An iterator holds no copy of the operands: after
    [setOperand(idx, v)] on the node at [this], dereferencing an iterator of
    that node at [idx] gives [v], at any other index gives what it gave
    before, and the iterators of every other node are unaffected. *)
Theorem deref_sees_setOperand (m : Memory) (this : Z) (op op' : Operation.t)
    (idx : Z) (v : SSAValuePtr) :
  m !! this = Some op →
  Operation.setOperand idx v op = Some op' →
  OperandIterator.deref (<[this := op']> m) (mk this idx) = Some v ∧
  (∀ j, j ≠ idx →
        OperandIterator.deref (<[this := op']> m) (mk this j)
        = OperandIterator.deref m (mk this j)) ∧
  (∀ it, object it ≠ this →
         OperandIterator.deref (<[this := op']> m) it
         = OperandIterator.deref m it).
Proof.
  intros Hlive Hset. unfold OperandIterator.deref. simpl.
  rewrite !lookup_insert_eq, Hlive. simpl.
  unfold Operation.setOperand in Hset.
  destruct (decide (0 <= idx < Operation.getNumOperands op)) as [Hidx|];
    [|done].
  injection Hset as <-.
  unfold Operation.getOperand, Operation.getNumOperands in *. simpl.
  rewrite length_insert. split_and!.
  - rewrite decide_True by done. apply list_lookup_insert_eq. lia.
  - intros j Hne.
    destruct (decide (0 <= j < Z.of_nat (length (Operation.operands op))));
      [|done].
    apply list_lookup_insert_ne. lia.
  - intros it Hother. by rewrite lookup_insert_ne.
Qed.

Lemma deref_sees_setOperand_witness :
  ∃ op',
    Operation.setOperand 0 Scenario.r Scenario.addNode = Some op' ∧
    OperandIterator.deref (<[Scenario.addAddr := op']> Scenario.memory)
      (mk Scenario.addAddr 0) = Some Scenario.r.
Proof.
  eexists. split; [reflexivity|].
  eapply (deref_sees_setOperand Scenario.memory Scenario.addAddr
            Scenario.addNode _ 0 Scenario.r).
  - vm_compute. reflexivity.
  - reflexivity.
Defined.
End Cursors.

(** ** What the attribute mutators leave alone *)
Section MutatorFrames.
Implicit Types (op : Operation.t) (elts : list NamedAttribute)
  (name : Identifier) (value : AttributePtr).

Lemma getAttr_scan_delete_ne elts_before name value elts_after name' :
  name' ≠ name →
  Operation.getAttr_scan (elts_before ++ (name, value) :: elts_after) name'
  = Operation.getAttr_scan (elts_before ++ elts_after) name'.
Proof.
  intros Hne. induction elts_before as [|elt elts_before IH]; simpl.
  - by rewrite decide_False by congruence.
  - by rewrite IH.
Qed.

(** X13.  [setAttr(name, value)] touches one name only: [getAttr] of every
    other name and the number of its entries are what they were, and the
    list grows by exactly one entry when [name] was absent and keeps its
    length when it was present. *)
Theorem setAttr_touches_one_name op name value :
  (∀ name', name' ≠ name →
     Operation.getAttr name' (Operation.setAttr name value op)
     = Operation.getAttr name' op ∧
     attrCount name' (Operation.getAttrs (Operation.setAttr name value op))
     = attrCount name' (Operation.getAttrs op)) ∧
  (Operation.hasAttr name op →
   length (Operation.getAttrs (Operation.setAttr name value op))
   = length (Operation.getAttrs op)) ∧
  (¬ Operation.hasAttr name op →
   length (Operation.getAttrs (Operation.setAttr name value op))
   = S (length (Operation.getAttrs op))).
Proof.
  unfold Operation.getAttr, Operation.setAttr, Operation.hasAttr,
    Operation.getAttrs. simpl.
  pose proof (setAttr_scan_names (Operation.attrs op) name value) as Hnames.
  apply (f_equal length) in Hnames. rewrite length_fmap in Hnames.
  split_and!.
  - intros name' Hne. split.
    + by apply getAttr_scan_setAttr_scan_ne.
    + by apply attrCount_setAttr_scan_ne.
  - intros Hin. rewrite decide_True in Hnames by done.
    by rewrite length_fmap in Hnames.
  - intros Hnotin. rewrite decide_False in Hnames by done.
    rewrite length_app, length_fmap in Hnames. simpl in Hnames.
    etrans; [exact Hnames|]. rewrite Nat.add_1_r. reflexivity.
Qed.

Lemma setAttr_touches_one_name_witness :
  length (Operation.getAttrs
            (Operation.setAttr Scenario.overflow_name Scenario.trap_attr
               Scenario.addNode)) = 1%nat ∧
  length (Operation.getAttrs
            (Operation.setAttr Scenario.add_name Scenario.trap_attr
               Scenario.addNode)) = 2%nat.
Proof.
  destruct (setAttr_touches_one_name Scenario.addNode Scenario.overflow_name
              Scenario.trap_attr) as (_ & Hpresent & _).
  destruct (setAttr_touches_one_name Scenario.addNode Scenario.add_name
              Scenario.trap_attr) as (_ & _ & Habsent).
  split.
  - rewrite Hpresent; [reflexivity|exact scenario_hasAttr].
  - rewrite Habsent; [reflexivity|].
    unfold Operation.hasAttr. simpl. rewrite list_elem_of_singleton.
    vm_compute. discriminate.
Defined.

(** X14.  [removeAttr(name)] removes one entry or nothing: when it reports
    [Removed] the list is one entry shorter, [getAttr] of every other name is
    unchanged either way, and on a node with one entry per name [getAttr] of
    the removed name is null afterwards. *)
Theorem removeAttr_touches_one_name op name :
  (Operation.hasAttr name op →
   S (length (Operation.getAttrs (Operation.removeAttr name op).2))
   = length (Operation.getAttrs op)) ∧
  (∀ name', name' ≠ name →
     Operation.getAttr name' (Operation.removeAttr name op).2
     = Operation.getAttr name' op) ∧
  (Operation.attrsUnique op →
   Operation.getAttr name (Operation.removeAttr name op).2 = nullptr).
Proof.
  split_and!.
  - intros Hin. unfold Operation.hasAttr, Operation.removeAttr in *.
    destruct (Operation.removeAttr_scan _ _) as [newAttrs|] eqn:Hscan.
    + apply removeAttr_scan_Some in Hscan
        as (before & value & after & Hsplit & -> & _).
      unfold Operation.getAttrs in *. simpl. rewrite Hsplit.
      rewrite !length_app. simpl. lia.
    + by apply removeAttr_scan_None in Hscan.
  - intros name' Hne. unfold Operation.removeAttr, Operation.getAttr.
    destruct (Operation.removeAttr_scan _ _) as [newAttrs|] eqn:Hscan; [|done].
    apply removeAttr_scan_Some in Hscan
      as (before & value & after & Hsplit & -> & _).
    unfold Operation.getAttrs in *. simpl. rewrite Hsplit.
    symmetry. by apply getAttr_scan_delete_ne.
  - intros Hunique. apply getAttr_scan_absent.
    by apply removeAttr_gone.
Qed.

Lemma removeAttr_touches_one_name_witness :
  S (length (Operation.getAttrs
               (Operation.removeAttr Scenario.overflow_name
                  Scenario.addNode).2))
  = length (Operation.getAttrs Scenario.addNode) ∧
  Operation.getAttr Scenario.overflow_name
    (Operation.removeAttr Scenario.overflow_name Scenario.addNode).2
  = nullptr.
Proof.
  destruct (removeAttr_touches_one_name Scenario.addNode
              Scenario.overflow_name) as (Hshorter & _ & Hnull).
  split; [exact (Hshorter scenario_hasAttr)|exact (Hnull scenario_attrsUnique)].
Defined.
End MutatorFrames.

(** ** Building a descriptor piece by piece *)
Section DescriptorBuild.
Variable Identifier_get : string → MLIRContextPtr → Identifier.
Implicit Types (s : OperationState.t).

(** X15.  The three adders of a descriptor work on separate lists: calls on
    different lists commute, and two calls of [addOperands] (or [addTypes])
    add up to one call with the concatenated list. *)
Theorem descriptor_adders_commute s (operands1 operands2 : list SSAValuePtr)
    (types1 types2 : list TypePtr) (name : string) (attr : AttributePtr) :
  OperationState.addOperands operands1 (OperationState.addTypes types1 s)
  = OperationState.addTypes types1 (OperationState.addOperands operands1 s) ∧
  OperationState.addAttribute Identifier_get name attr
    (OperationState.addOperands operands1 s)
  = OperationState.addOperands operands1
      (OperationState.addAttribute Identifier_get name attr s) ∧
  OperationState.addAttribute Identifier_get name attr
    (OperationState.addTypes types1 s)
  = OperationState.addTypes types1
      (OperationState.addAttribute Identifier_get name attr s) ∧
  OperationState.addOperands operands2
    (OperationState.addOperands operands1 s)
  = OperationState.addOperands (operands1 ++ operands2) s ∧
  OperationState.addTypes types2 (OperationState.addTypes types1 s)
  = OperationState.addTypes (types1 ++ types2) s.
Proof.
  unfold OperationState.addOperands, OperationState.addTypes,
    OperationState.addAttribute. simpl.
  rewrite <- !app_assoc. done.
Qed.

Lemma foldl_addAttribute s (named : list (string * AttributePtr)) :
  foldl (λ s' p, OperationState.addAttribute Identifier_get p.1 p.2 s') s named
  = OperationState.mk (OperationState.context s) (OperationState.location s)
      (OperationState.name s) (OperationState.operands s)
      (OperationState.types s)
      (OperationState.attributes s
       ++ ((λ p, (Identifier_get p.1 (OperationState.context s), p.2))
             <$> named)).
Proof.
  revert s. induction named as [|p named IH]; intros s; simpl.
  - rewrite app_nil_r. by destruct s.
  - rewrite IH. simpl. by rewrite <- app_assoc.
Qed.

(** X16.  Filling an empty descriptor with [addOperands], [addTypes] and one
    [addAttribute] per named attribute gives the descriptor that the
    six-argument constructor builds from the same lists, the attribute names
    interned in the descriptor's context and kept in call order. *)
Theorem piecewise_build_is_createFull (context : MLIRContextPtr)
    (location : AttributePtr) (name : string) (operands : list SSAValuePtr)
    (types : list TypePtr) (named : list (string * AttributePtr)) :
  foldl (λ s p, OperationState.addAttribute Identifier_get p.1 p.2 s)
    (OperationState.addTypes types
       (OperationState.addOperands operands
          (OperationState.create Identifier_get context location name)))
    named
  = OperationState.createFull Identifier_get context location name operands
      types ((λ p, (Identifier_get p.1 context, p.2)) <$> named).
Proof. by rewrite foldl_addAttribute. Qed.
End DescriptorBuild.

(** ** The name of a node *)

Lemma getName_fixed_at_construction_witness :
  ∃ op',
    Operation.applyMutations
      [Operation.SetAttr Scenario.add_name Scenario.wrap_attr;
       Operation.SetOperand 0 Scenario.b]
      Fixtures.doubled = Some op' ∧
    Operation.getName Scenario.lowBits op' = Scenario.add_name.
Proof.
  eexists. split; [reflexivity|].
  apply (getName_fixed_at_construction Scenario.lowBits false
    Scenario.add_name
    [(Scenario.overflow_name, Scenario.wrap_attr);
     (Scenario.add_name, Scenario.trap_attr);
     (Scenario.overflow_name, Scenario.trap_attr)] 64 0
    [Scenario.a; Scenario.b] []
    [Operation.SetAttr Scenario.add_name Scenario.wrap_attr;
     Operation.SetOperand 0 Scenario.b]).
  - unfold Scenario.lowBits. lia.
  - reflexivity.
  - reflexivity.
Defined.
